(** * Sustainable Resource Management: the domain classes

    A shallow embedding of [models/resource.py] and [models/consumer.py],
    and of what their callers ([main.py], [app.py]) do with the objects:
    the loop over assignments and purchases, the event count and the
    progress-bar fraction.

    Modelling choices.
    - Quantities.  The Python code computes on numbers ([int] in the console
      script, [float] in the dashboard).  They are embedded as exact rationals
      [Q]: comparison, subtraction, division and rounding to two decimals are
      those of the exact values.  Binary rounding error and the non-finite
      floats ([nan], [inf]) are outside the model.
    - Objects.  A [Resource] is a mutable object shared by reference between
      consumers.  Resource objects live in a store ([heap]) and are named by
      their address; [in] on a list of resources compares addresses, as
      Python does for a class without [__eq__].
    - Effects.  A method that mutates [self] returns its result together with
      the new object (or the new store).  The clock read by
      [datetime.now()] is an argument [now].
    - Text.  Messages are the strings the code builds.  [str(amount)], which
      depends on whether the caller passed an [int] or a [float], is a
      parameter [str] of the development; the fixed-point format [:.2f] is
      defined here. *)

From Stdlib Require Import ZArith QArith Lqa.
From stdpp Require Import base option list strings pretty gmap.

Local Open Scope Z_scope.

(** ** Numbers *)

(** Python's [a <= b] and [a > b] on numbers. *)
Definition Qleb (a b : Q) : bool := Qle_bool a b.
Definition Qgtb (a b : Q) : bool := negb (Qle_bool a b).

(** Nearest integer, ties to the even one: the rounding rule of Python's
    [round] and of its [f] format. *)
Definition round_half_even (q : Q) : Z :=
  let n := Qnum q in
  let d := Zpos (Qden q) in
  let f := n / d in
  let r2 := 2 * (n mod d) in
  if r2 <? d then f
  else if d <? r2 then f + 1
  else if Z.even f then f else f + 1.

(** [round(x, 2)]. *)
Definition round2 (x : Q) : Q :=
  Qred (round_half_even (x * 100) # 100).

(** [format(x, ".2f")]: sign, integer part, a point and two digits. *)
Definition two_digits (m : Z) : string :=
  (if m <? 10 then "0" else "") +:+ pretty m.

Definition format_2f (x : Q) : string :=
  let k := Z.abs (round_half_even (x * 100)) in
  (if Qnum x <? 0 then "-" else "")
    +:+ pretty (k / 100) +:+ "." +:+ two_digits (k mod 100).

(** [str] of an [int]; the instance of the parameter [str] used on the
    console script's inputs, which are all integers. *)
Definition str_int (x : Q) : string := pretty (Qnum x / Zpos (Qden x)).

(** ** Resources *)

(** One entry of [Resource._usage_log]. *)
Record UsageEvent := {
  ue_resource : string;
  ue_amount : Q;
  ue_remaining : Q;
  ue_timestamp : string
}.

(** The class of a resource object, with the attribute its subclass adds. *)
Inductive ResourceClass :=
| BaseResource
| Water (source : string)
| Energy (energy_type : string)
| Waste (waste_category : string).

Record Resource := {
  name : string;
  total_available : Q;
  initial_amount : Q;
  renewable : bool;
  usage_log : list UsageEvent;
  class_of : ResourceClass
}.

(** [Resource.__init__], run by every subclass constructor through
    [super().__init__]. *)
Definition Resource_init (cls : ResourceClass) (name : string)
    (total_available : Q) (renewable : bool) : Resource :=
  {| name := name;
     total_available := total_available;
     initial_amount := total_available;
     renewable := renewable;
     usage_log := [];
     class_of := cls |}.

Definition new_Resource (name : string) (total_available : Q) (renewable : bool)
    : Resource :=
  Resource_init BaseResource name total_available renewable.

(** The subclass constructors.  An omitted keyword argument is [None]. *)
Definition WaterResource (total_available : Q) (source : option string)
    (renewable : option bool) : Resource :=
  let source := default "Reservoir" source in
  Resource_init (Water source) "Water" total_available (default true renewable).

Definition EnergyResource (total_available : Q) (energy_type : option string)
    (renewable : option bool) : Resource :=
  let energy_type := default "Solar" energy_type in
  Resource_init (Energy energy_type) "Electricity" total_available
    (default true renewable).

Definition WasteResource (total_available : Q) (waste_category : option string)
    (renewable : option bool) : Resource :=
  let waste_category := default "Recyclable" waste_category in
  Resource_init (Waste waste_category) "Waste" total_available
    (default false renewable).

(** The store of resource objects: an object's address is its index, and
    objects are never freed. *)
Abbreviation address := nat (only parsing).
Abbreviation heap := (list Resource) (only parsing).


(** *** Reports *)

(** A value stored in a report dictionary. *)
Inductive value :=
| VStr (s : string)
| VNum (x : Q)
| VBool (b : bool).

(** [Resource.report_usage] of the base class. *)
Definition base_report_usage (self : Resource) : gmap string value :=
  let consumed := (initial_amount self - total_available self)%Q in
  let utilisation :=
    if Qgtb (initial_amount self) 0
    then (consumed / initial_amount self * 100)%Q
    else 0%Q in
  <["utilisation_pct" := VNum (round2 utilisation)]>
  (<["renewable" := VBool (renewable self)]>
  (<["consumed" := VNum (round2 consumed)]>
  (<["total_available" := VNum (round2 (total_available self))]>
  (<["name" := VStr (name self)]> ∅)))).

(** [report_usage] as dispatched on the object's class: each override
    calls the base method and then stores its own keys. *)
Definition report_usage (self : Resource) : gmap string value :=
  let report := base_report_usage self in
  match class_of self with
  | BaseResource => report
  | Water source =>
      <["source" := VStr source]> (<["unit" := VStr "litres"]> report)
  | Energy energy_type =>
      <["energy_type" := VStr energy_type]> (<["unit" := VStr "kWh"]> report)
  | Waste waste_category =>
      <["label_consumed" := VStr "waste_deposited"]>
      (<["waste_category" := VStr waste_category]>
      (<["unit" := VStr "kg"]> report))
  end.

Section Model.

(** Python's [str] on the number passed as [amount]. *)
Variable str : Q -> string.

(** *** The mutator *)

(** [result.startswith("✔")]: how the callers of the mutator
    ([Consumer.use_resource], the dashboard) tell success from failure. *)
Definition succeeded (result : string) : bool := String.prefix "✔" result.

Definition invalid_amount_message (amount : Q) : string :=
  "⚠ Invalid amount (" +:+ str amount +:+ "). Must be positive.".

Definition insufficient_message (self : Resource) (amount : Q) : string :=
  "⚠ Insufficient " +:+ name self +:+ "! "
    +:+ "Requested " +:+ str amount +:+ ", but only "
    +:+ format_2f (total_available self) +:+ " available.".

Definition consumed_message (self : Resource) (amount : Q) : string :=
  "✔ " +:+ str amount +:+ " units of " +:+ name self +:+ " consumed. "
    +:+ "Remaining: " +:+ format_2f (total_available self).

(** [Resource.update_availability]: the message returned and the object
    after the call. *)
Definition update_availability (now : string) (self : Resource) (amount : Q)
    : string * Resource :=
  if Qleb amount 0 then (invalid_amount_message amount, self)
  else if Qgtb amount (total_available self)
  then (insufficient_message self amount, self)
  else
    let remaining := (total_available self - amount)%Q in
    let entry :=
      {| ue_resource := name self;
         ue_amount := amount;
         ue_remaining := round2 remaining;
         ue_timestamp := now |} in
    let self' :=
      {| name := name self;
         total_available := remaining;
         initial_amount := initial_amount self;
         renewable := renewable self;
         usage_log := usage_log self ++ [entry];
         class_of := class_of self |} in
    (consumed_message self' amount, self').

(** ** Consumers *)

(** One entry of [Consumer._consumption_history]. *)
Record ConsumptionEntry := {
  ce_consumer : string;
  ce_resource : string;
  ce_amount : Q;
  ce_remaining : Q
}.

(** [consumer_id : str | int]. *)
Inductive ident :=
| IdStr (s : string)
| IdInt (n : Z).

Record Consumer := {
  consumer_id : ident;
  consumer_name : string;
  assigned_resources : list address;
  consumption_history : list ConsumptionEntry
}.

(** [Consumer.__init__]; [assigned_resources or []] keeps a non-empty
    list as it is given. *)
Definition new_Consumer (consumer_id : ident) (name : string)
    (assigned_resources : option (list address)) : Consumer :=
  {| consumer_id := consumer_id;
     consumer_name := name;
     assigned_resources := default [] assigned_resources;
     consumption_history := [] |}.

Definition already_assigned_message (self : Consumer) (r : Resource) : string :=
  "⚠ " +:+ name r +:+ " is already assigned to " +:+ consumer_name self +:+ ".".

Definition assigned_message (self : Consumer) (r : Resource) : string :=
  "✔ " +:+ name r +:+ " assigned to " +:+ consumer_name self +:+ ".".

Definition not_assigned_message (self : Consumer) (r : Resource) : string :=
  "⚠ " +:+ name r +:+ " is not assigned to " +:+ consumer_name self +:+ ". "
    +:+ "Please assign it first.".

(** [Consumer.assign_resource].  The result is [None] only for an address
    that names no object, which a Python reference never does. *)
Definition assign_resource (self : Consumer) (resource : address) (h : heap)
    : option (string * Consumer) :=
  r ← h !! resource;
  if bool_decide (resource ∈ assigned_resources self)
  then Some (already_assigned_message self r, self)
  else
    Some (assigned_message self r,
          {| consumer_id := consumer_id self;
             consumer_name := consumer_name self;
             assigned_resources := assigned_resources self ++ [resource];
             consumption_history := consumption_history self |}).

(** [Consumer.use_resource]: the message, the consumer and the store after
    the call. *)
Definition use_resource (now : string) (self : Consumer) (resource : address)
    (amount : Q) (h : heap) : option (string * Consumer * heap) :=
  r ← h !! resource;
  if negb (bool_decide (resource ∈ assigned_resources self))
  then Some (not_assigned_message self r, self, h)
  else
    let '(result, r') := update_availability now r amount in
    let h' := <[resource := r']> h in
    let self' :=
      if succeeded result
      then
        {| consumer_id := consumer_id self;
           consumer_name := consumer_name self;
           assigned_resources := assigned_resources self;
           consumption_history :=
             consumption_history self ++
               [{| ce_consumer := consumer_name self;
                   ce_resource := name r';
                   ce_amount := amount;
                   ce_remaining := total_available r' |}] |}
      else self in
    Some (result, self', h').

(** *** Call sequences on one resource *)




End Model.

(** ** The consumer's report *)

(** The dictionary returned by [Consumer.generate_usage_report]: a literal
    with five fixed keys, here the five fields. *)
Record UsageReport := {
  rep_consumer_id : ident;
  rep_name : string;
  rep_resources : list (gmap string value);
  rep_consumption_history : list ConsumptionEntry;
  rep_total_consumption_events : nat
}.

(** [Consumer.generate_usage_report]: one [report_usage] per assigned
    resource, in the order of the list.  The result is [None] only when an
    address names no object. *)
Definition generate_usage_report (self : Consumer) (h : heap)
    : option UsageReport :=
  resource_reports ←
    mapM (λ res, report_usage <$> h !! res) (assigned_resources self);
  Some {| rep_consumer_id := consumer_id self;
          rep_name := consumer_name self;
          rep_resources := resource_reports;
          rep_consumption_history := consumption_history self;
          rep_total_consumption_events := length (consumption_history self) |}.

(** ** The callers: console script and dashboard *)



(** [app.py], sidebar: [sum(len(c.consumption_history) for c in consumers)]. *)
Definition total_events (consumers : list Consumer) : nat :=
  sum_list (length ∘ consumption_history <$> consumers).

(** The objects of a session: the consumers and the store of resources
    they share.  A consumer is named by its index. *)
Record World := {
  consumers : list Consumer;
  resources : list Resource
}.

(** What the callers do with the objects: [main.py] assigns resources and
    then runs [consumer.use_resource(resource, amount)] over a list of
    actions; the dashboard's button does the latter once per click. *)
Inductive action :=
| Assign (consumer : nat) (resource : address)
| Use (consumer : nat) (resource : address) (now : string) (amount : Q).

Section Driver.

Variable str : Q -> string.

(** One action: the message returned and the objects afterwards; [None]
    when the action names an object that does not exist. *)
Definition perform (w : World) (a : action) : option (string * World) :=
  match a with
  | Assign ci resource =>
      c ← consumers w !! ci;
      '(msg, c') ← assign_resource c resource (resources w);
      Some (msg, {| consumers := <[ci := c']> (consumers w);
                    resources := resources w |})
  | Use ci resource now amount =>
      c ← consumers w !! ci;
      '(msg, c', h') ← use_resource str now c resource amount (resources w);
      Some (msg, {| consumers := <[ci := c']> (consumers w);
                    resources := h' |})
  end.

(** The loop over a list of actions, collecting the messages. *)
Fixpoint perform_all (w : World) (actions : list action)
    : option (list string * World) :=
  match actions with
  | [] => Some ([], w)
  | a :: rest =>
      '(msg, w') ← perform w a;
      '(msgs, w'') ← perform_all w' rest;
      Some (msg :: msgs, w'')
  end.

End Driver.

(** Whether an action and the message it returned are a consumption that
    took place. *)
Definition consumed_by (a : action) (msg : string) : bool :=
  match a with
  | Assign _ _ => false
  | Use _ _ _ _ => succeeded msg
  end.

(** ** Specification vocabulary *)

(** [sub] occurs in [s]. *)
Definition occurs_in (sub s : string) : Prop :=
  ∃ pre post, s = pre +:+ sub +:+ post.


(** How many entries of a list of references name the object at [a]. *)
Definition occurrences (a : address) (l : list address) : nat :=
  count_occ Nat.eq_dec l a.






(** The number of usage-log entries in a store. *)
Definition logged_events (h : heap) : nat :=
  sum_list (length ∘ usage_log <$> h).

(** What a session may do to a consumer object: lists are only appended
    to, a list of assignments without repeats stays so, and identifier and
    name are kept. *)
Definition grows (c c' : Consumer) : Prop :=
  consumer_id c' = consumer_id c
  ∧ consumer_name c' = consumer_name c
  ∧ assigned_resources c `prefix_of` assigned_resources c'
  ∧ consumption_history c `prefix_of` consumption_history c'
  ∧ (NoDup (assigned_resources c) → NoDup (assigned_resources c')).

(** ** Sample objects *)

(** The console script's water supply, alone in the store at address 0,
    and the same supply drawn down to 500. *)
Definition sample_water : Resource := WaterResource 10000 (Some "River") None.
Definition sample_store : list Resource := [sample_water].
Definition low_water : Resource := WaterResource 500 (Some "Groundwater") None.

(** A household that holds the water supply, one that holds nothing, and
    one whose constructor was handed the same reference twice. *)
Definition sample_household : Consumer :=
  new_Consumer (IdStr "C-101") "Residential Block A" (Some [0%nat]).
Definition sample_stranger : Consumer :=
  new_Consumer (IdStr "C-202") "Textile Factory B" None.
Definition sample_preseeded : Consumer :=
  new_Consumer (IdStr "C-303") "Office C" (Some [0%nat; 0%nat]).



(** The console script's session: three supplies and a spare one, two
    consumers, the six assignments, the six purchases, and the three calls
    the script makes to show the refusals. *)
Definition session_store : list Resource :=
  [ WaterResource 10000 (Some "River") None;
    EnergyResource 5000 (Some "Solar") None;
    WasteResource 2000 (Some "Recyclable") None;
    WaterResource 500 (Some "Groundwater") None ].

Definition session_start : World :=
  {| consumers :=
       [ new_Consumer (IdStr "C-101") "Residential Block A" None;
         new_Consumer (IdStr "C-202") "Textile Factory B" None ];
     resources := session_store |}.

Definition session_actions : list action :=
  [ Assign 0 0; Assign 0 1; Assign 0 2;
    Assign 1 0; Assign 1 1; Assign 1 2;
    Use 0 0 "t1" 1500; Use 0 1 "t2" 800; Use 0 2 "t3" 300;
    Use 1 0 "t4" 4000; Use 1 1 "t5" 2200; Use 1 2 "t6" 1000;
    Use 1 0 "t7" 9999; Use 0 1 "t8" (-50); Use 0 3 "t9" 100 ].

(** * Properties *)

(** ** Numbers and strings *)

Lemma Qleb_true a b : Qleb a b = true ↔ (a <= b)%Q.
Proof. apply Qle_bool_iff. Qed.

Lemma Qleb_false a b : Qleb a b = false ↔ (b < a)%Q.
Proof.
  unfold Qleb. split.
  - intros H. apply Qnot_le_lt. intros Hle.
    apply Qle_bool_iff in Hle. congruence.
  - intros H. destruct (Qle_bool a b) eqn:E; [|done].
    apply Qle_bool_iff in E. lra.
Qed.

Lemma Qgtb_true a b : Qgtb a b = true ↔ (b < a)%Q.
Proof.
  unfold Qgtb. rewrite negb_true_iff. apply Qleb_false.
Qed.

Lemma Qgtb_false a b : Qgtb a b = false ↔ (a <= b)%Q.
Proof.
  unfold Qgtb. rewrite negb_false_iff. apply Qle_bool_iff.
Qed.

Lemma string_app_assoc (a b c : string) : (a +:+ b) +:+ c = a +:+ b +:+ c.
Proof.
  induction a as [|x a IH]; [done |].
  change (String x ((a +:+ b) +:+ c) = String x (a +:+ b +:+ c)). by f_equal.
Qed.

Lemma occurs_in_here pre sub post : occurs_in sub (pre +:+ sub +:+ post).
Proof. by exists pre, post. Qed.

Lemma occurs_in_app_l sub pre s : occurs_in sub s → occurs_in sub (pre +:+ s).
Proof.
  intros (p & q & ->). exists (pre +:+ p), q. symmetry. apply string_app_assoc.
Qed.


Section Properties.

Variable str : Q → string.

(** ** The mutator, case by case *)

Lemma update_availability_invalid now self amount :
  (amount <= 0)%Q →
  update_availability str now self amount
  = (invalid_amount_message str amount, self).
Proof.
  intros H. unfold update_availability. by rewrite (proj2 (Qleb_true _ _) H).
Qed.

Lemma update_availability_insufficient now self amount :
  (0 < amount)%Q → (total_available self < amount)%Q →
  update_availability str now self amount
  = (insufficient_message str self amount, self).
Proof.
  intros H0 H. unfold update_availability.
  by rewrite (proj2 (Qleb_false _ _) H0), (proj2 (Qgtb_true _ _) H).
Qed.

Lemma update_availability_consumed now self amount :
  (0 < amount)%Q → (amount <= total_available self)%Q →
  update_availability str now self amount
  = let self' :=
      {| name := name self;
         total_available := total_available self - amount;
         initial_amount := initial_amount self;
         renewable := renewable self;
         usage_log :=
           usage_log self ++
             [{| ue_resource := name self;
                 ue_amount := amount;
                 ue_remaining := round2 (total_available self - amount);
                 ue_timestamp := now |}];
         class_of := class_of self |} in
    (consumed_message str self' amount, self').
Proof.
  intros H0 H. unfold update_availability.
  by rewrite (proj2 (Qleb_false _ _) H0), (proj2 (Qgtb_false _ _) H).
Qed.

Lemma succeeded_invalid amount : succeeded (invalid_amount_message str amount) = false.
Proof. reflexivity. Qed.

Lemma succeeded_insufficient self amount :
  succeeded (insufficient_message str self amount) = false.
Proof. reflexivity. Qed.

Lemma succeeded_consumed self amount :
  succeeded (consumed_message str self amount) = true.
Proof. reflexivity. Qed.

(** The three cases are exhaustive: a call that is not a success left the
    object as it was, and a success is a call with [0 < amount <= total]. *)
Lemma update_availability_cases now self amount :
  ((amount <= 0)%Q ∨ (total_available self < amount)%Q)
    ∧ succeeded (update_availability str now self amount).1 = false
    ∧ (update_availability str now self amount).2 = self
  ∨ ((0 < amount)%Q ∧ (amount <= total_available self)%Q)
    ∧ succeeded (update_availability str now self amount).1 = true.
Proof.
  destruct (Qlt_le_dec 0 amount) as [Hpos|Hnonpos].
  - destruct (Qlt_le_dec (total_available self) amount) as [Hins|Hok].
    + left. rewrite update_availability_insufficient by done. auto.
    + right. rewrite update_availability_consumed by done. auto.
  - left. rewrite update_availability_invalid by done. auto.
Qed.

(** ** Construction *)

(** C10.  The constructors validate nothing: whatever the quantity [q],
    negative ones included, the object is built with
    [total_available = initial_amount = q] and an empty usage log.  This
    holds for the base class and, through [super().__init__], for the three
    subclasses. *)
Theorem constructor_accepts_any_quantity (q : Q) :
  (∀ cls nm rn,
     total_available (Resource_init cls nm q rn) = q
     ∧ initial_amount (Resource_init cls nm q rn) = q
     ∧ usage_log (Resource_init cls nm q rn) = [])
  ∧ (∀ nm rn, total_available (new_Resource nm q rn) = q
              ∧ initial_amount (new_Resource nm q rn) = q)
  ∧ (∀ src rn, total_available (WaterResource q src rn) = q
               ∧ initial_amount (WaterResource q src rn) = q)
  ∧ (∀ ty rn, total_available (EnergyResource q ty rn) = q
              ∧ initial_amount (EnergyResource q ty rn) = q)
  ∧ (∀ cat rn, total_available (WasteResource q cat rn) = q
               ∧ initial_amount (WasteResource q cat rn) = q).
Proof. repeat split. Qed.

(** ** The mutator's contract *)

(** C2.  [update_availability] fails without touching the object when
    [amount <= 0], with a message that shows the amount, and when
    [amount > total_available], with a message that shows the amount and
    the availability (the first test is made first, so this second message
    is the one returned whenever the amount is positive); a call to which
    neither condition applies succeeds and changes the object. *)
Theorem update_availability_failure_conditions now self amount :
  ((amount <= 0)%Q →
     update_availability str now self amount
       = (invalid_amount_message str amount, self)
     ∧ succeeded (invalid_amount_message str amount) = false
     ∧ occurs_in (str amount) (invalid_amount_message str amount))
  ∧ ((total_available self < amount)%Q →
     (update_availability str now self amount).2 = self
     ∧ succeeded (update_availability str now self amount).1 = false
     ∧ ((0 < amount)%Q →
        (update_availability str now self amount).1
          = insufficient_message str self amount
        ∧ occurs_in (str amount) (insufficient_message str self amount)
        ∧ occurs_in (format_2f (total_available self))
            (insufficient_message str self amount)))
  ∧ ((0 < amount)%Q → (amount <= total_available self)%Q →
     succeeded (update_availability str now self amount).1 = true
     ∧ (update_availability str now self amount).2 ≠ self).
Proof.
  split; [|split].
  - intros H. rewrite update_availability_invalid by done.
    repeat split. apply occurs_in_here.
  - intros H. split; [|split].
    + destruct (update_availability_cases now self amount)
        as [(_ & _ & ?) | [[_ ?] _]]; [done | lra].
    + destruct (update_availability_cases now self amount)
        as [(_ & ? & _) | [[_ ?] _]]; [done | lra].
    + intros H0. rewrite update_availability_insufficient by done.
      split; [done | split].
      * unfold insufficient_message.
        do 3 apply occurs_in_app_l. apply occurs_in_here.
      * unfold insufficient_message.
        do 5 apply occurs_in_app_l. apply occurs_in_here.
  - intros H0 H. rewrite update_availability_consumed by done.
    split; [done |]. simpl. intros Heq.
    apply (f_equal (λ r, length (usage_log r))) in Heq. simpl in Heq.
    rewrite length_app in Heq. simpl in Heq. lia.
Qed.




(** ** Consumers *)

Lemma use_resource_unassigned now self resource amount (h : heap) r :
  h !! resource = Some r →
  resource ∉ assigned_resources self →
  use_resource str now self resource amount h
  = Some (not_assigned_message self r, self, h).
Proof.
  intros Hr Hnot. unfold use_resource. rewrite Hr. simpl.
  by rewrite bool_decide_eq_false_2.
Qed.

Lemma use_resource_assigned now self resource amount (h : heap) r :
  h !! resource = Some r →
  resource ∈ assigned_resources self →
  use_resource str now self resource amount h
  = let result := (update_availability str now r amount).1 in
    let r' := (update_availability str now r amount).2 in
    Some (result,
          if succeeded result
          then {| consumer_id := consumer_id self;
                  consumer_name := consumer_name self;
                  assigned_resources := assigned_resources self;
                  consumption_history :=
                    consumption_history self ++
                      [{| ce_consumer := consumer_name self;
                          ce_resource := name r';
                          ce_amount := amount;
                          ce_remaining := total_available r' |}] |}
          else self,
          <[resource := r']> h).
Proof.
  intros Hr Hin. unfold use_resource. rewrite Hr. simpl.
  rewrite bool_decide_eq_true_2 by done. simpl.
  by destruct (update_availability str now r amount).
Qed.

Lemma succeeded_not_assigned self r :
  succeeded (not_assigned_message self r) = false.
Proof. reflexivity. Qed.

(** A call of [use_resource] that is not a success changes nothing. *)
Lemma use_resource_not_succeeded now self resource amount (h : heap) msg self' h' :
  use_resource str now self resource amount h = Some (msg, self', h') →
  succeeded msg = false →
  self' = self ∧ h' = h.
Proof.
  intros Hcall Hfail.
  destruct (h !! resource) as [r|] eqn:Hr;
    [| unfold use_resource in Hcall; by rewrite Hr in Hcall].
  destruct (decide (resource ∈ assigned_resources self)) as [Hin|Hnot].
  - rewrite (use_resource_assigned _ _ _ _ _ r) in Hcall by done.
    simpl in Hcall. injection Hcall as <- <- <-.
    rewrite Hfail.
    destruct (update_availability_cases now r amount)
      as [(_ & _ & ->) | [_ Hok]]; [| congruence].
    by rewrite list_insert_id.
  - rewrite (use_resource_unassigned _ _ _ _ _ r) in Hcall by done.
    by injection Hcall as <- <- <-.
Qed.

(** C4.  A failed [use_resource] is a no-op.  For a resource that is not
    assigned the call returns the "not assigned" message and never reaches
    the resource; for an invalid or an excessive amount it returns a
    failure message; and whenever the returned message is not a success,
    the consumer and the whole store are what they were, so
    [total_available], the length of the usage log and the length of the
    consumption history are unchanged. *)
Theorem use_resource_failure_is_noop now self resource amount (h : heap) r :
  h !! resource = Some r →
  (resource ∉ assigned_resources self →
     use_resource str now self resource amount h
       = Some (not_assigned_message self r, self, h)
     ∧ succeeded (not_assigned_message self r) = false)
  ∧ ((amount <= 0)%Q ∨ (total_available r < amount)%Q →
     ∃ msg, use_resource str now self resource amount h = Some (msg, self, h)
            ∧ succeeded msg = false)
  ∧ (∀ msg self' h',
       use_resource str now self resource amount h = Some (msg, self', h') →
       succeeded msg = false →
       self' = self ∧ h' = h
       ∧ total_available <$> h' !! resource = Some (total_available r)
       ∧ length ∘ usage_log <$> h' !! resource = Some (length (usage_log r))
       ∧ length (consumption_history self')
         = length (consumption_history self)).
Proof.
  intros Hr. split; [|split].
  - intros Hnot. by rewrite (use_resource_unassigned _ _ _ _ _ r).
  - intros Hbad.
    destruct (decide (resource ∈ assigned_resources self)) as [Hin|Hnot].
    + rewrite (use_resource_assigned _ _ _ _ _ r) by done. simpl.
      destruct (update_availability_cases now r amount)
        as [(_ & Hf & Hsame) | [[H0 H] _]]; [| destruct Hbad; lra].
      rewrite Hf, Hsame, list_insert_id by done. eauto.
    + rewrite (use_resource_unassigned _ _ _ _ _ r) by done. eauto.
  - intros msg self' h' Hcall Hfail.
    destruct (use_resource_not_succeeded _ _ _ _ _ _ _ _ Hcall Hfail)
      as [-> ->].
    by rewrite Hr.
Qed.

(** C7.  On an assigned resource [use_resource] returns the very message
    of the resource's [update_availability] and stores the object that
    call left.  That message is a success exactly when
    [0 < amount <= total_available]; then one entry (consumer name,
    resource name, amount, the resource's new [total_available]) is
    appended to the consumption history, and otherwise the consumer is
    unchanged. *)
Theorem use_resource_forwards_outcome now self resource amount (h : heap) r :
  h !! resource = Some r →
  resource ∈ assigned_resources self →
  let result := (update_availability str now r amount).1 in
  let r' := (update_availability str now r amount).2 in
  ∃ self',
    use_resource str now self resource amount h
      = Some (result, self', <[resource := r']> h)
    ∧ (succeeded result = true
       ↔ (0 < amount)%Q ∧ (amount <= total_available r)%Q)
    ∧ (succeeded result = true →
       consumption_history self' =
         consumption_history self ++
           [{| ce_consumer := consumer_name self;
               ce_resource := name r;
               ce_amount := amount;
               ce_remaining := total_available r' |}]
       ∧ consumer_id self' = consumer_id self
       ∧ consumer_name self' = consumer_name self
       ∧ assigned_resources self' = assigned_resources self)
    ∧ (succeeded result = false → self' = self).
Proof.
  intros Hr Hin result r'.
  rewrite (use_resource_assigned _ _ _ _ _ r) by done.
  eexists. split; [reflexivity |]. fold result r'.
  split; [| split].
  - subst result.
    destruct (update_availability_cases now r amount)
      as [(Hbad & Hf & _) | [[H0 H] Hs]].
    + rewrite Hf. split; [done |]. intros [? ?]. destruct Hbad; lra.
    + by rewrite Hs.
  - intros Hs. rewrite Hs. simpl. repeat split.
    subst r'.
    destruct (update_availability_cases now r amount)
      as [(_ & Hf & _) | [[H0 H] _]]; [subst result; congruence |].
    by rewrite update_availability_consumed.
  - intros Hf. by rewrite Hf.
Qed.

(** *** Assignment *)

Lemma assign_resource_already self resource (h : heap) r :
  h !! resource = Some r →
  resource ∈ assigned_resources self →
  assign_resource self resource h = Some (already_assigned_message self r, self).
Proof.
  intros Hr Hin. unfold assign_resource. rewrite Hr. simpl.
  by rewrite bool_decide_eq_true_2.
Qed.

Lemma assign_resource_new self resource (h : heap) r :
  h !! resource = Some r →
  resource ∉ assigned_resources self →
  assign_resource self resource h
  = Some (assigned_message self r,
          {| consumer_id := consumer_id self;
             consumer_name := consumer_name self;
             assigned_resources := assigned_resources self ++ [resource];
             consumption_history := consumption_history self |}).
Proof.
  intros Hr Hnot. unfold assign_resource. rewrite Hr. simpl.
  by rewrite bool_decide_eq_false_2.
Qed.

Lemma occurrences_zero a l : a ∉ l ↔ occurrences a l = 0%nat.
Proof.
  unfold occurrences. rewrite list_elem_of_In. apply count_occ_not_In.
Qed.

Lemma occurrences_snoc a l : occurrences a (l ++ [a]) = S (occurrences a l).
Proof.
  unfold occurrences. rewrite count_occ_app. simpl.
  destruct (Nat.eq_dec a a); [lia | done].
Qed.

(** C5, as the code has it.  [assign_resource] on a resource already in
    the list returns the "already assigned" message and changes nothing;
    otherwise it appends the resource and returns the "assigned" message.
    Called twice with the same resource, the second call reports the
    duplicate and changes nothing, and the list holds exactly one entry
    for the resource provided it held at most one before the two calls. *)
Theorem assign_resource_idempotent self resource (h : heap) r :
  h !! resource = Some r →
  (resource ∈ assigned_resources self →
     assign_resource self resource h
       = Some (already_assigned_message self r, self)
     ∧ succeeded (already_assigned_message self r) = false)
  ∧ (resource ∉ assigned_resources self →
     assign_resource self resource h
       = Some (assigned_message self r,
               {| consumer_id := consumer_id self;
                  consumer_name := consumer_name self;
                  assigned_resources := assigned_resources self ++ [resource];
                  consumption_history := consumption_history self |})
     ∧ succeeded (assigned_message self r) = true)
  ∧ ∃ m1 c1,
      assign_resource self resource h = Some (m1, c1)
      ∧ assign_resource c1 resource h
        = Some (already_assigned_message c1 r, c1)
      ∧ succeeded (already_assigned_message c1 r) = false
      ∧ ((occurrences resource (assigned_resources self) ≤ 1)%nat →
         occurrences resource (assigned_resources c1) = 1%nat).
Proof.
  intros Hr. split; [|split].
  - intros Hin. by rewrite (assign_resource_already _ _ _ r).
  - intros Hnot. by rewrite (assign_resource_new _ _ _ r).
  - destruct (decide (resource ∈ assigned_resources self)) as [Hin|Hnot].
    + rewrite (assign_resource_already _ _ _ r) by done.
      do 2 eexists. split; [done |].
      rewrite (assign_resource_already _ _ _ r) by done.
      repeat split. intros Hle.
      assert (occurrences resource (assigned_resources self) ≠ 0%nat)
        by (intros H0; by apply occurrences_zero in H0).
      lia.
    + rewrite (assign_resource_new _ _ _ r) by done.
      do 2 eexists. split; [done |].
      rewrite (assign_resource_already _ _ _ r);
        [| done | simpl; apply elem_of_app; right; apply list_elem_of_singleton;
                  done].
      repeat split. intros _. simpl. rewrite occurrences_snoc.
      apply occurrences_zero in Hnot. lia.
Qed.

(** ** The balance invariant *)




(** ** Reports *)




(** ** How success is told from failure *)


End Properties.

(** * The properties at the sample objects *)


Lemma update_availability_failure_conditions_witness :
  update_availability str_int "t" low_water (-50)
    = ("⚠ Invalid amount (-50). Must be positive.", low_water)
  ∧ (update_availability str_int "t" low_water 9999).1
    = "⚠ Insufficient Water! Requested 9999, but only 500.00 available."
  ∧ (update_availability str_int "t" low_water 9999).2 = low_water
  ∧ succeeded (update_availability str_int "t" low_water 500).1 = true.
Proof.
  destruct (update_availability_failure_conditions str_int "t" low_water (-50))
    as (Hinvalid & _ & _).
  destruct (update_availability_failure_conditions str_int "t" low_water 9999)
    as (_ & Hinsufficient & _).
  destruct (update_availability_failure_conditions str_int "t" low_water 500)
    as (_ & _ & Hok).
  split; [apply Hinvalid; simpl; lra |].
  destruct Hinsufficient as (Hsame & _ & Hmsg); [simpl; lra |].
  split; [apply Hmsg; lra |].
  split; [exact Hsame |].
  apply Hok; simpl; lra.
Defined.



Lemma use_resource_failure_is_noop_witness :
  sample_store !! 0%nat = Some sample_water
  ∧ use_resource str_int "t" sample_stranger 0 100 sample_store
    = Some ("⚠ Water is not assigned to Textile Factory B. Please assign it first.",
            sample_stranger, sample_store)
  ∧ (∃ msg, use_resource str_int "t" sample_household 0 (-50) sample_store
            = Some (msg, sample_household, sample_store)
            ∧ succeeded msg = false)
  ∧ ∃ msg, use_resource str_int "t" sample_household 0 10001 sample_store
           = Some (msg, sample_household, sample_store)
           ∧ succeeded msg = false.
Proof.
  assert (sample_store !! 0%nat = Some sample_water) as Hr by reflexivity.
  split; [exact Hr |].
  split; [| split].
  - destruct (use_resource_failure_is_noop str_int "t" sample_stranger 0 100
                sample_store sample_water Hr) as (Hnot & _ & _).
    apply Hnot. simpl. apply not_elem_of_nil.
  - destruct (use_resource_failure_is_noop str_int "t" sample_household 0
                (-50) sample_store sample_water Hr) as (_ & Hbad & _).
    apply Hbad. left. lra.
  - destruct (use_resource_failure_is_noop str_int "t" sample_household 0
                10001 sample_store sample_water Hr) as (_ & Hbad & _).
    apply Hbad. right. simpl. lra.
Defined.

Lemma use_resource_forwards_outcome_witness :
  sample_store !! 0%nat = Some sample_water
  ∧ (0%nat ∈ assigned_resources sample_household)
  ∧ ∃ consumer',
      use_resource str_int "t" sample_household 0 1500 sample_store
      = Some ((update_availability str_int "t" sample_water 1500).1, consumer',
              [(update_availability str_int "t" sample_water 1500).2])
      ∧ consumption_history consumer'
        = [{| ce_consumer := "Residential Block A";
              ce_resource := "Water";
              ce_amount := 1500;
              ce_remaining := (10000 - 1500)%Q |}].
Proof.
  assert (sample_store !! 0%nat = Some sample_water) as Hr by reflexivity.
  assert (0%nat ∈ assigned_resources sample_household) as Hin
    by (simpl; apply list_elem_of_here).
  split; [exact Hr |]. split; [exact Hin |].
  destruct (use_resource_forwards_outcome str_int "t" sample_household 0 1500
              sample_store sample_water Hr Hin)
    as (consumer' & Hcall & _ & Hlog & _).
  exists consumer'. split; [exact Hcall |].
  destruct Hlog as (Hhist & _); [reflexivity | exact Hhist].
Defined.

Lemma assign_resource_idempotent_witness :
  sample_store !! 0%nat = Some sample_water
  ∧ assign_resource sample_household 0 sample_store
    = Some ("⚠ Water is already assigned to Residential Block A.",
            sample_household)
  ∧ ∃ m1 c1,
      assign_resource sample_stranger 0 sample_store = Some (m1, c1)
      ∧ assign_resource c1 0 sample_store
        = Some (already_assigned_message c1 sample_water, c1)
      ∧ occurrences 0 (assigned_resources c1) = 1%nat.
Proof.
  assert (sample_store !! 0%nat = Some sample_water) as Hr by reflexivity.
  split; [exact Hr |]. split.
  - destruct (assign_resource_idempotent sample_household 0 sample_store
                sample_water Hr) as (Hdup & _ & _).
    apply Hdup. simpl. apply list_elem_of_here.
  - destruct (assign_resource_idempotent sample_stranger 0 sample_store
                sample_water Hr) as (_ & _ & m1 & c1 & H1 & H2 & _ & Hone).
    exists m1, c1. split; [exact H1 |]. split; [exact H2 |].
    apply Hone. simpl. lia.
Defined.

(** ** Where the code departs from the specification's wording *)

(** C5 as worded fails for a consumer whose constructor was given a list
    that names a resource twice: both calls of [assign_resource] report
    the duplicate and leave the consumer as it is, with two entries for
    the resource. *)
Lemma assign_twice_keeps_preseeded_duplicates :
  assign_resource sample_preseeded 0 sample_store
    = Some ("⚠ Water is already assigned to Office C.", sample_preseeded)
  ∧ (assign_resource sample_preseeded 0 sample_store
       ≫= λ first, assign_resource first.2 0 sample_store)
    = Some ("⚠ Water is already assigned to Office C.", sample_preseeded)
  ∧ assigned_resources sample_preseeded = [0%nat; 0%nat]
  ∧ occurrences 0 (assigned_resources sample_preseeded) = 2%nat
  ∧ occurrences 0 (assigned_resources sample_preseeded) ≠ 1%nat.
Proof. repeat split. vm_compute. lia. Qed.


(** * Further properties of the classes and their callers *)

(** ** What calls do to a resource *)





Section Further.

Variable str : Q → string.









(** ** Consumers and the store they share *)

(** A [use_resource] call returns only for an allocated resource, and its
    outcome is one of the two shapes the method has. *)
Lemma use_resource_inv now self resource amount (h : heap) msg self' h' :
  use_resource str now self resource amount h = Some (msg, self', h') →
  ∃ r, h !! resource = Some r
       ∧ (((resource ∉ assigned_resources self)
           ∧ (msg = not_assigned_message self r) ∧ self' = self ∧ h' = h)
          ∨ (resource ∈ assigned_resources self
             ∧ msg = (update_availability str now r amount).1
             ∧ h' = <[resource := (update_availability str now r amount).2]> h
             ∧ self' =
                 (if succeeded msg
                 then {| consumer_id := consumer_id self;
                         consumer_name := consumer_name self;
                         assigned_resources := assigned_resources self;
                         consumption_history :=
                           consumption_history self ++
                             [{| ce_consumer := consumer_name self;
                                 ce_resource :=
                                   name (update_availability str now r amount).2;
                                 ce_amount := amount;
                                 ce_remaining :=
                                   total_available
                                     (update_availability str now r amount).2
                              |}] |}
                 else self))).
Proof.
  intros Hcall.
  destruct (h !! resource) as [r|] eqn:Hr;
    [| unfold use_resource in Hcall; by rewrite Hr in Hcall].
  exists r. split; [done |].
  destruct (decide (resource ∈ assigned_resources self)) as [Hin|Hnot].
  - rewrite (use_resource_assigned _ _ _ _ _ _ r) in Hcall by done.
    simpl in Hcall. injection Hcall as <- <- <-. by right.
  - rewrite (use_resource_unassigned _ _ _ _ _ _ r) in Hcall by done.
    injection Hcall as <- <- <-. by left.
Qed.

(** X4.  [use_resource] reaches one object only: the store keeps its
    size, every other resource is exactly as before, and the consumer's
    identifier, name and assignments are never changed by it. *)
Theorem use_resource_touches_one_object
    now self resource amount (h : heap) msg self' h' :
  use_resource str now self resource amount h = Some (msg, self', h') →
  length h' = length h
  ∧ (∀ other, other ≠ resource → h' !! other = h !! other)
  ∧ consumer_id self' = consumer_id self
  ∧ consumer_name self' = consumer_name self
  ∧ assigned_resources self' = assigned_resources self
  ∧ consumption_history self `prefix_of` consumption_history self'.
Proof.
  intros Hcall.
  destruct (use_resource_inv _ _ _ _ _ _ _ _ Hcall)
    as (r & Hr & [(_ & _ & -> & ->) | (_ & _ & -> & ->)]).
  - repeat split; done.
  - split; [apply length_insert |].
    split; [intros other Hne; by apply list_lookup_insert_ne |].
    destruct (succeeded msg); simpl; repeat split; try done.
    by eexists.
Qed.


(** The two outcomes of an [assign_resource] call that returns. *)
Lemma assign_resource_inv self resource (h : heap) m self' :
  assign_resource self resource h = Some (m, self') →
  ∃ r, h !! resource = Some r
       ∧ ((resource ∈ assigned_resources self
           ∧ m = already_assigned_message self r ∧ self' = self)
          ∨ ((resource ∉ assigned_resources self)
             ∧ (m = assigned_message self r)
             ∧ self' =
                 {| consumer_id := consumer_id self;
                    consumer_name := consumer_name self;
                    assigned_resources := assigned_resources self ++ [resource];
                    consumption_history := consumption_history self |})).
Proof.
  intros Hcall.
  destruct (h !! resource) as [r|] eqn:Hr;
    [| unfold assign_resource in Hcall; by rewrite Hr in Hcall].
  exists r. split; [done |].
  destruct (decide (resource ∈ assigned_resources self)) as [Hin|Hnot].
  - rewrite (assign_resource_already _ _ _ r) in Hcall by done.
    injection Hcall as <- <-. by left.
  - rewrite (assign_resource_new _ _ _ r) in Hcall by done.
    injection Hcall as <- <-. by right.
Qed.

(** X6.  After [assign_resource], whichever of its two messages it
    returned, the resource is in the consumer's list, so a following
    [use_resource] is never refused as "not assigned": it returns what the
    resource's [update_availability] returns. *)
Theorem assign_then_use now self resource amount (h : heap) r :
  h !! resource = Some r →
  ∃ m self1,
    assign_resource self resource h = Some (m, self1)
    ∧ resource ∈ assigned_resources self1
    ∧ ∃ self2,
        use_resource str now self1 resource amount h
        = Some ((update_availability str now r amount).1, self2,
                <[resource := (update_availability str now r amount).2]> h).
Proof.
  intros Hr.
  destruct (decide (resource ∈ assigned_resources self)) as [Hin|Hnot].
  - rewrite (assign_resource_already _ _ _ r) by done.
    do 2 eexists. split; [done |]. split; [done |].
    rewrite (use_resource_assigned _ _ _ _ _ _ r) by done. by eexists.
  - rewrite (assign_resource_new _ _ _ r) by done.
    assert (resource ∈ assigned_resources self ++ [resource]) as Hin.
    { apply elem_of_app. right. by apply list_elem_of_singleton. }
    do 2 eexists. split; [done |]. split; [done |].
    rewrite (use_resource_assigned _ _ _ _ _ _ r) by done. by eexists.
Qed.

(** X7.  A successful [use_resource] writes matching records on both
    sides: the consumer's newest history entry and the resource's newest
    log entry carry the same resource name and the same amount, the history
    entry holds the resource's new availability and the log entry that
    availability rounded to two decimals. *)
Theorem history_matches_log now self resource amount (h : heap) msg self' h' :
  use_resource str now self resource amount h = Some (msg, self', h') →
  succeeded msg = true →
  ∃ r' entry event,
    h' !! resource = Some r'
    ∧ last (consumption_history self') = Some entry
    ∧ last (usage_log r') = Some event
    ∧ ce_consumer entry = consumer_name self
    ∧ ce_resource entry = ue_resource event
    ∧ ce_amount entry = amount ∧ ue_amount event = amount
    ∧ ce_remaining entry = total_available r'
    ∧ ue_remaining event = round2 (ce_remaining entry)
    ∧ ue_timestamp event = now.
Proof.
  intros Hcall Hs.
  destruct (use_resource_inv _ _ _ _ _ _ _ _ Hcall)
    as (r & Hr & [(_ & -> & _ & _) | (Hin & Hmsg & -> & ->)]);
    [by rewrite succeeded_not_assigned in Hs |].
  pose proof (lookup_lt_Some _ _ _ Hr) as Hlt.
  rewrite Hs. simpl.
  destruct (update_availability_cases str now r amount)
    as [(_ & Hf & _) | [[H0 H] _]]; [congruence |].
  rewrite update_availability_consumed by done. simpl.
  do 3 eexists. split; [by apply list_lookup_insert_eq |]. simpl.
  rewrite !last_snoc. repeat split.
Qed.

(** X8.  [assign_resource] only ever appends: the old list is a prefix of
    the new one, at most one entry longer, the resource is in it
    afterwards, a list without repeats stays without repeats, and the
    consumption history is untouched. *)
Theorem assign_resource_only_appends self resource (h : heap) m self' :
  assign_resource self resource h = Some (m, self') →
  resource ∈ assigned_resources self'
  ∧ assigned_resources self `prefix_of` assigned_resources self'
  ∧ (length (assigned_resources self') ≤ S (length (assigned_resources self)))%nat
  ∧ (NoDup (assigned_resources self) → NoDup (assigned_resources self'))
  ∧ consumption_history self' = consumption_history self
  ∧ consumer_id self' = consumer_id self
  ∧ consumer_name self' = consumer_name self.
Proof.
  intros Hcall.
  destruct (h !! resource) as [r|] eqn:Hr;
    [| unfold assign_resource in Hcall; by rewrite Hr in Hcall].
  destruct (decide (resource ∈ assigned_resources self)) as [Hin|Hnot].
  - rewrite (assign_resource_already _ _ _ r) in Hcall by done.
    injection Hcall as <- <-. repeat split; try done. lia.
  - rewrite (assign_resource_new _ _ _ r) in Hcall by done.
    injection Hcall as <- <-. simpl. repeat split.
    + apply elem_of_app. right. by apply list_elem_of_singleton.
    + by eexists.
    + rewrite length_app. simpl. lia.
    + intros Hnd. apply NoDup_app. split; [done |].
      split; [| apply NoDup_singleton].
      intros x Hx Hx'. apply list_elem_of_singleton in Hx'. by subst.
Qed.

End Further.

(** ** Rounding and the utilisation figure *)








(** ** The consumer's report *)

(** X10.  When every assigned address names an object,
    [generate_usage_report] returns a report that lists one resource
    report per assignment, in the order of assignment and computed from the
    store as it is now, and whose event count is the length of the
    consumption history it carries. *)
Theorem generate_usage_report_in_order self (h : heap) :
  (∀ a, a ∈ assigned_resources self → is_Some (h !! a)) →
  ∃ report,
    generate_usage_report self h = Some report
    ∧ length (rep_resources report) = length (assigned_resources self)
    ∧ (∀ i a r, assigned_resources self !! i = Some a → h !! a = Some r →
                rep_resources report !! i = Some (report_usage r))
    ∧ rep_consumption_history report = consumption_history self
    ∧ rep_total_consumption_events report
      = length (rep_consumption_history report)
    ∧ rep_consumer_id report = consumer_id self
    ∧ rep_name report = consumer_name self.
Proof.
  intros Hall.
  destruct (mapM_is_Some_2 (λ res, report_usage <$> h !! res)
              (assigned_resources self)) as [reports Hreports].
  { apply Forall_forall. intros a Ha. destruct (Hall a Ha) as [r Hr].
    simpl. rewrite Hr. by eexists. }
  unfold generate_usage_report. rewrite Hreports. simpl.
  eexists. split; [done |]. simpl.
  apply mapM_Some_1 in Hreports.
  split; [symmetry; by eapply Forall2_length |].
  split; [| done].
  intros i a r Hi Hr.
  destruct (Forall2_lookup_l _ _ _ _ _ Hreports Hi) as (rep & Hrep & Hf).
  rewrite Hr in Hf. simpl in Hf. congruence.
Qed.

(** ** Sessions: several consumers on one store *)

Lemma sum_list_fmap_insert {A} (f : A → nat) (l : list A) i x y :
  l !! i = Some x →
  (sum_list (f <$> <[i := y]> l) + f x = sum_list (f <$> l) + f y)%nat.
Proof.
  revert i. induction l as [|z l IH]; intros [|i] Hi; simplify_eq/=.
  - lia.
  - specialize (IH i Hi). lia.
Qed.

Section Sessions.

Variable str : Q → string.

(** What one action does to the objects. *)
Lemma perform_inv w a msg w' :
  perform str w a = Some (msg, w') →
  ∃ ci c c',
    consumers w !! ci = Some c
    ∧ consumers w' = <[ci := c']> (consumers w)
    ∧ ((∃ resource,
          a = Assign ci resource
          ∧ assign_resource c resource (resources w) = Some (msg, c')
          ∧ resources w' = resources w)
       ∨ (∃ resource now amount,
            a = Use ci resource now amount
            ∧ use_resource str now c resource amount (resources w)
              = Some (msg, c', resources w'))).
Proof.
  intros Hp. destruct a as [ci resource | ci resource now amount];
    simpl in Hp.
  - destruct (consumers w !! ci) as [c|] eqn:Hc; [| done]. simpl in Hp.
    destruct (assign_resource c resource (resources w)) as [[m c']|] eqn:Ha;
      [| done].
    simpl in Hp. injection Hp as <- <-.
    exists ci, c, c'. split; [done |]. split; [done |]. left. eauto.
  - destruct (consumers w !! ci) as [c|] eqn:Hc; [| done]. simpl in Hp.
    destruct (use_resource str now c resource amount (resources w))
      as [[[m c'] h']|] eqn:Hu; [| done].
    simpl in Hp. injection Hp as <- <-.
    exists ci, c, c'. split; [done |]. split; [done |]. right.
    by exists resource, now, amount.
Qed.

Lemma perform_events w a msg w' :
  perform str w a = Some (msg, w') →
  total_events (consumers w')
  = (total_events (consumers w) + (if consumed_by a msg then 1 else 0))%nat
  ∧ logged_events (resources w')
    = (logged_events (resources w) + (if consumed_by a msg then 1 else 0))%nat.
Proof.
  intros Hp.
  destruct (perform_inv _ _ _ _ Hp)
    as (ci & c & c' & Hc & Hcs & [(res & -> & Ha & Hres)
                                 | (res & now & amount & -> & Hu)]).
  - assert (consumption_history c' = consumption_history c) as Hh.
    { destruct (assign_resource_inv _ _ _ _ _ Ha)
        as (r & _ & [(_ & _ & ->) | (_ & _ & ->)]); done. }
    unfold total_events. rewrite Hcs, Hres. simpl. split; [| lia].
    pose proof (sum_list_fmap_insert (length ∘ consumption_history)
                  _ _ _ c' Hc) as Hsum.
    simpl in Hsum. rewrite Hh in Hsum. lia.
  - unfold total_events, logged_events. rewrite Hcs. simpl.
    pose proof (sum_list_fmap_insert (length ∘ consumption_history)
                  _ _ _ c' Hc) as Hsum.
    simpl in Hsum.
    destruct (use_resource_inv _ _ _ _ _ _ _ _ _ Hu)
      as (r & Hr & [(_ & -> & -> & ->) | (_ & Hmsg & -> & ->)]).
    + rewrite succeeded_not_assigned. lia.
    + assert (length (usage_log (update_availability str now r amount).2)
              = (length (usage_log r) + (if succeeded msg then 1 else 0))%nat)
        as Hgrow.
      { rewrite Hmsg.
        destruct (update_availability_cases str now r amount)
          as [(_ & -> & ->) | [[H0 H] ->]]; [lia |].
        rewrite update_availability_consumed by done. simpl.
        rewrite length_app. simpl. lia. }
      pose proof (sum_list_fmap_insert (length ∘ usage_log) _ _ _
                    (update_availability str now r amount).2 Hr) as Hlog.
      simpl in Hlog. revert Hsum Hgrow Hlog.
      generalize (update_availability str now r amount).2. intros r'.
      destruct (succeeded msg); simpl; rewrite ?length_app; simpl; lia.
Qed.

(** X11.  Over any run of assignments and [use_resource] calls by any
    number of consumers, the consumption events counted over the
    consumers' histories (the dashboard's "Events" figure) and the entries
    added to the resources' usage logs grow by the same number: the number
    of [use_resource] calls of the run that returned a success. *)
Theorem events_match_logs actions : ∀ w msgs w',
  perform_all str w actions = Some (msgs, w') →
  length msgs = length actions
  ∧ total_events (consumers w')
    = (total_events (consumers w)
       + length (filter (λ p, consumed_by p.1 p.2 = true) (zip actions msgs)))%nat
  ∧ logged_events (resources w')
    = (logged_events (resources w)
       + length (filter (λ p, consumed_by p.1 p.2 = true) (zip actions msgs)))%nat.
Proof.
  induction actions as [|a actions IH]; intros w msgs w' Hrun; simpl in Hrun.
  - injection Hrun as <- <-. simpl. repeat split; lia.
  - destruct (perform str w a) as [[m w1]|] eqn:Hp; [| done]. simpl in Hrun.
    destruct (perform_all str w1 actions) as [[ms w2]|] eqn:Hrest; [| done].
    simpl in Hrun. injection Hrun as <- <-.
    destruct (IH _ _ _ Hrest) as (Hlen & Hc & Hl).
    destruct (perform_events _ _ _ _ Hp) as [Hc1 Hl1].
    simpl. split; [by rewrite Hlen |].
    rewrite filter_cons. simpl.
    destruct (decide (consumed_by a m = true)) as [Hyes|Hno].
    + rewrite Hyes in *. simpl. lia.
    + apply not_true_is_false in Hno. rewrite Hno in *. lia.
Qed.

Lemma grows_refl c : grows c c.
Proof. unfold grows. by split_and!. Qed.

Lemma grows_trans c1 c2 c3 : grows c1 c2 → grows c2 c3 → grows c1 c3.
Proof.
  intros (Hi & Hn & Ha & Hh & Hd) (Hi' & Hn' & Ha' & Hh' & Hd').
  unfold grows.
  split_and!; [congruence | congruence | by etrans | by etrans | auto].
Qed.

Lemma assign_resource_grows c resource (h : heap) m c' :
  assign_resource c resource h = Some (m, c') → grows c c'.
Proof.
  intros Ha.
  destruct (assign_resource_inv _ _ _ _ _ Ha)
    as (r & _ & [(_ & _ & ->) | (Hnot & _ & ->)]); [apply grows_refl |].
  unfold grows. simpl. split_and!; [done | done | by eexists | done |].
  intros Hnd. apply NoDup_app. split; [done |].
  split; [| apply NoDup_singleton].
  intros x Hx Hx'. apply list_elem_of_singleton in Hx'. by subst.
Qed.

Lemma use_resource_grows now c resource amount (h : heap) m c' h' :
  use_resource str now c resource amount h = Some (m, c', h') → grows c c'.
Proof.
  intros Hu.
  destruct (use_resource_inv _ _ _ _ _ _ _ _ _ Hu)
    as (r & _ & [(_ & _ & -> & _) | (_ & _ & _ & ->)]); [apply grows_refl |].
  destruct (succeeded m); [| apply grows_refl].
  unfold grows. simpl. split_and!; [done | done | done | by eexists | done].
Qed.

Lemma perform_consumers w a msg w' :
  perform str w a = Some (msg, w') →
  ∀ ci c, consumers w !! ci = Some c →
          ∃ c', consumers w' !! ci = Some c' ∧ grows c c'.
Proof.
  intros Hp ci c Hc.
  destruct (perform_inv _ _ _ _ Hp)
    as (cj & d & d' & Hd & -> & Hcase).
  destruct (decide (cj = ci)) as [->|Hne].
  - assert (d = c) as -> by congruence.
    exists d'. split.
    + apply list_lookup_insert_eq. by eapply lookup_lt_Some.
    + destruct Hcase as [(res & _ & Ha & _) | (res & now & amount & _ & Hu)].
      * by eapply assign_resource_grows.
      * by eapply use_resource_grows.
  - exists c. rewrite list_lookup_insert_ne by done.
    split; [done | apply grows_refl].
Qed.



(** X13.  In any session every consumer keeps its identifier and name,
    its list of assigned resources and its consumption history are only
    ever appended to, and a list of assignments without repeats stays
    without repeats. *)
Theorem session_only_appends actions : ∀ w msgs w',
  perform_all str w actions = Some (msgs, w') →
  ∀ ci c, consumers w !! ci = Some c →
  ∃ c', consumers w' !! ci = Some c'
        ∧ consumer_id c' = consumer_id c
        ∧ consumer_name c' = consumer_name c
        ∧ assigned_resources c `prefix_of` assigned_resources c'
        ∧ consumption_history c `prefix_of` consumption_history c'
        ∧ (NoDup (assigned_resources c) → NoDup (assigned_resources c')).
Proof.
  induction actions as [|a actions IH]; intros w msgs w' Hrun ci c Hc;
    simpl in Hrun.
  - injection Hrun as <- <-. exists c. split; [done | apply grows_refl].
  - destruct (perform str w a) as [[m w1]|] eqn:Hp; [| done].
    simpl in Hrun.
    destruct (perform_all str w1 actions) as [[ms w2]|] eqn:Hrest; [| done].
    simpl in Hrun. injection Hrun as <- <-.
    destruct (perform_consumers _ _ _ _ Hp ci c Hc) as (c1 & Hc1 & Hg1).
    destruct (IH _ _ _ Hrest ci c1 Hc1) as (c2 & Hc2 & Hg2).
    exists c2. split; [done |].
    apply (grows_trans c c1 c2 Hg1). exact Hg2.
Qed.

End Sessions.

(** ** Edge cases of the quantity *)





Section Edges.

Variable str : Q → string.



End Edges.

(** * The further properties at the sample objects *)



Lemma use_resource_touches_one_object_witness :
  ∃ msg self' h',
    use_resource str_int "t" sample_household 0 1500 session_store
    = Some (msg, self', h')
    ∧ length h' = length session_store
    ∧ (∀ other, other ≠ 0%nat → h' !! other = session_store !! other)
    ∧ assigned_resources self' = assigned_resources sample_household.
Proof.
  destruct (use_resource str_int "t" sample_household 0 1500 session_store)
    as [[[msg self'] h']|] eqn:Hcall; [| vm_compute in Hcall; discriminate].
  exists msg, self', h'. split; [reflexivity |].
  destruct (use_resource_touches_one_object str_int "t" sample_household 0
              1500 session_store msg self' h' Hcall)
    as (Hlen & Hother & _ & _ & Hassigned & _).
  split; [exact Hlen |]. split; [exact Hother | exact Hassigned].
Defined.


Lemma assign_then_use_witness :
  sample_store !! 0%nat = Some sample_water
  ∧ ∃ m self1,
      assign_resource sample_stranger 0 sample_store = Some (m, self1)
      ∧ 0%nat ∈ assigned_resources self1
      ∧ ∃ self2,
          use_resource str_int "t" self1 0 100 sample_store
          = Some ((update_availability str_int "t" sample_water 100).1, self2,
                  <[0%nat := (update_availability str_int "t" sample_water 100).2]>
                    sample_store).
Proof.
  assert (sample_store !! 0%nat = Some sample_water) as Hr by reflexivity.
  split; [exact Hr |].
  exact (assign_then_use str_int "t" sample_stranger 0 100 sample_store
           sample_water Hr).
Defined.

Lemma history_matches_log_witness :
  ∃ msg self' h',
    use_resource str_int "t" sample_household 0 1500 sample_store
    = Some (msg, self', h')
    ∧ succeeded msg = true
    ∧ ∃ r' entry event,
        h' !! 0%nat = Some r'
        ∧ last (consumption_history self') = Some entry
        ∧ last (usage_log r') = Some event
        ∧ ce_amount entry = 1500%Q ∧ ue_amount event = 1500%Q
        ∧ ue_remaining event = round2 (ce_remaining entry).
Proof.
  destruct (use_resource str_int "t" sample_household 0 1500 sample_store)
    as [[[msg self'] h']|] eqn:Hcall; [| vm_compute in Hcall; discriminate].
  assert (succeeded msg = true) as Hs.
  { vm_compute in Hcall. injection Hcall as <- _ _. reflexivity. }
  exists msg, self', h'. split; [reflexivity |]. split; [exact Hs |].
  destruct (history_matches_log str_int "t" sample_household 0 1500
              sample_store msg self' h' Hcall Hs)
    as (r' & entry & event & H1 & H2 & H3 & _ & _ & H4 & H5 & _ & H6 & _).
  exists r', entry, event.
  split; [exact H1 |]. split; [exact H2 |]. split; [exact H3 |].
  split; [exact H4 |]. split; [exact H5 | exact H6].
Defined.

Lemma assign_resource_only_appends_witness :
  ∃ m self',
    assign_resource sample_household 1 session_store = Some (m, self')
    ∧ 1%nat ∈ assigned_resources self'
    ∧ assigned_resources sample_household `prefix_of` assigned_resources self'
    ∧ NoDup (assigned_resources self').
Proof.
  destruct (assign_resource sample_household 1 session_store)
    as [[m self']|] eqn:Hcall; [| vm_compute in Hcall; discriminate].
  exists m, self'. split; [reflexivity |].
  destruct (assign_resource_only_appends sample_household 1 session_store
              m self' Hcall) as (Hin & Hpre & _ & Hnd & _).
  split; [exact Hin |]. split; [exact Hpre |].
  apply Hnd. simpl. apply NoDup_singleton.
Defined.


Lemma generate_usage_report_in_order_witness :
  (∀ a, a ∈ assigned_resources sample_preseeded →
        is_Some (sample_store !! a))
  ∧ ∃ report,
      generate_usage_report sample_preseeded sample_store = Some report
      ∧ length (rep_resources report) = 2%nat
      ∧ rep_resources report !! 1%nat = Some (report_usage sample_water)
      ∧ rep_total_consumption_events report = 0%nat.
Proof.
  assert (∀ a, a ∈ assigned_resources sample_preseeded →
               is_Some (sample_store !! a)) as Hall.
  { intros a Ha. simpl in Ha.
    apply elem_of_cons in Ha as [-> | Ha]; [by eexists |].
    apply list_elem_of_singleton in Ha as ->. by eexists. }
  split; [exact Hall |].
  destruct (generate_usage_report_in_order sample_preseeded sample_store Hall)
    as (report & Hrep & Hlen & Hlook & Hhist & Hcount & _).
  exists report. split; [exact Hrep |]. split; [exact Hlen |].
  split; [by apply (Hlook 1%nat 0%nat) |].
  rewrite Hcount, Hhist. reflexivity.
Defined.

Lemma events_match_logs_witness :
  ∃ msgs w',
    perform_all str_int session_start session_actions = Some (msgs, w')
    ∧ length msgs = length session_actions
    ∧ total_events (consumers w')
      = (total_events (consumers session_start)
         + length (filter (λ p, consumed_by p.1 p.2 = true)
                     (zip session_actions msgs)))%nat
    ∧ logged_events (resources w')
      = (logged_events (resources session_start)
         + length (filter (λ p, consumed_by p.1 p.2 = true)
                     (zip session_actions msgs)))%nat.
Proof.
  destruct (perform_all str_int session_start session_actions)
    as [[msgs w']|] eqn:Hrun; [| vm_compute in Hrun; discriminate].
  exists msgs, w'. split; [reflexivity |].
  exact (events_match_logs str_int session_actions session_start msgs w' Hrun).
Defined.


Lemma session_only_appends_witness :
  ∃ msgs w',
    perform_all str_int session_start session_actions = Some (msgs, w')
    ∧ ∃ c', consumers w' !! 1%nat = Some c'
            ∧ consumer_name c' = "Textile Factory B"
            ∧ NoDup (assigned_resources c').
Proof.
  destruct (perform_all str_int session_start session_actions)
    as [[msgs w']|] eqn:Hrun; [| vm_compute in Hrun; discriminate].
  exists msgs, w'. split; [reflexivity |].
  destruct (session_only_appends str_int session_actions session_start
              msgs w' Hrun 1%nat
              (new_Consumer (IdStr "C-202") "Textile Factory B" None) eq_refl)
    as (c' & Hc' & _ & Hn & _ & _ & Hnd).
  exists c'. split; [exact Hc' |]. split; [exact Hn |].
  apply Hnd. simpl. apply NoDup_nil_2.
Defined.


